(** * microfft table generator: [scripts/gen_tables.py]

    A shallow embedding of the Python script that prints the twiddle (sine)
    tables and the bit-reversal tables of microfft, and the properties of the
    tables it prints.

    Python integers are unbounded, so they are [Z]; [//] is [Z.div] (floor
    division), [&], [|], [<<] are [Z.land], [Z.lor], [Z.shiftl].  Standard
    output is modelled as the list of [print] calls made so far.  Floating
    point is kept behind the interface [FloatOps]: every statement below holds
    for any implementation of it. *)

From Stdlib Require Import ZArith Lia String.
From stdpp Require Import base list list_numbers.

Local Open Scope string_scope.
Local Open Scope list_scope.
Local Open Scope Z_scope.

(** ** Python built-ins used by the script *)

(** Truth value of an integer in [if x:]. *)
Definition truthy (x : Z) : bool := negb (x =? 0).

(** [range(start, stop)]: empty when [stop <= start]. *)
Definition range (start stop : Z) : list Z := seqZ start (stop - start).

(** Whether [n] is an exact power of two, [1] included. *)
Definition is_pow2 (n : Z) : bool := (0 <? n) && (n =? 2 ^ Z.log2 n).

(** ** [reverse_bits] (lines 77-82) *)

Definition reverse_bits (num nbits : Z) : Z :=
  foldl (fun reverse i =>
           if truthy (Z.land num (Z.shiftl 1 i))
           then Z.lor reverse (Z.shiftl 1 (nbits - 1 - i))
           else reverse)
        0 (range 0 nbits).

(** ** Floating point *)

(** The operations of Python's [float] that the script uses.  [float_of_int]
    is the conversion Python applies to the integer operand of a mixed
    [int]/[float] product or quotient; it is taken to be total (CPython raises
    [OverflowError] only beyond 1.7e308). *)
Class FloatOps := {
  float : Type;
  float_of_int : Z -> float;
  fmul : float -> float -> float;
  fdiv : float -> float -> float;
  math_pi : float;
  math_sin : float -> float
}.

(** The free implementation: a float is the expression that computes it. *)
Inductive sym : Type :=
| SInt (z : Z)
| SPi
| SMul (a b : sym)
| SDiv (a b : sym)
| SSin (a : sym).

Definition sym_float : FloatOps :=
  {| float := sym; float_of_int := SInt; fmul := SMul; fdiv := SDiv;
     math_pi := SPi; math_sin := SSin |}.

(** ** How a computation ends *)

Inductive exn : Type :=
| ValueError.                  (* math domain error *)

(** How a computation ends: normally, by an exception, or still running when
    the fuel of a [while] loop is used up. *)
Inductive outcome (A : Type) : Type :=
| Ret (a : A)
| Raise (e : exn)
| OutOfFuel.
Arguments Ret {A} a.
Arguments Raise {A} e.
Arguments OutOfFuel {A}.

Section Generator.
Context {F : FloatOps}.

(** [math.sin(-2 * math.pi * k / n)] (line 48); Python parses it as
    [((-2 * pi) * k) / n]. *)
Definition sine (n k : Z) : float :=
  math_sin (fdiv (fmul (fmul (float_of_int (-2)) math_pi) (float_of_int k))
                 (float_of_int n)).

(** ** Standard output *)

(** One [print] call.  A line that is a fixed text is kept as that text; a
    line built from a value keeps the value. *)
Inductive item : Type :=
| Line (s : string)              (* print(s) *)
| Blank                          (* print() *)
| Frag (s : string)              (* print(s, end=" ") *)
| CfgSize (kw : string) (n : Z)  (* print(f'{kw} #[cfg(feature = "size-{n}")] {{') *)
| CfgBitrev                      (* print('#[cfg(feature = "bitrev-tables")]') *)
| SineVal (sine : float)         (* print(f"    {sine},") *)
| BitrevVal (entry : Z).         (* print(f"        {entry},") *)

(** What was printed, and how the computation ended. *)
Definition M (A : Type) : Type := (list item * outcome A)%type.

Definition ret {A} (a : A) : M A := ([], Ret a).

Definition bind {A B} (m : M A) (k : A -> M B) : M B :=
  match m with
  | (o1, Ret a) => let '(o2, r) := k a in (o1 ++ o2, r)
  | (o1, Raise e) => (o1, Raise e)
  | (o1, OutOfFuel) => (o1, OutOfFuel)
  end.

Definition print (it : item) : M unit := ([it], Ret tt).
Definition raise {A} (e : exn) : M A := ([], Raise e).
Definition out_of_fuel {A} : M A := ([], OutOfFuel).

Notation "x <- c1 ;; c2" := (bind c1 (fun x => c2))
  (at level 100, c1 at next level, right associativity).
Notation "c1 ;; c2" := (bind c1 (fun _ => c2))
  (at level 100, right associativity).

(** [for x in xs: body(x)] *)
Fixpoint for_ {A} (xs : list A) (body : A -> M unit) : M unit :=
  match xs with
  | [] => ret tt
  | x :: xs' => body x ;; for_ xs' body
  end.

(** [int(math.log2(n))] (line 69).  [math.log2] raises [ValueError] on
    [n <= 0]; on a power of two it is exact, and those are the only arguments
    [emit_bitrev] passes. *)
Definition int_log2 (n : Z) : M Z :=
  if n <=? 0 then raise ValueError else ret (Z.log2 n).

(** ** The script *)

Definition emit_header : M unit :=
  print (Line "//! This file was generated with gen_tables.py.") ;;
  print Blank ;;
  print (Line "#![allow(clippy::excessive_precision)]") ;;
  print (Line "#![allow(clippy::unreadable_literal)]") ;;
  print Blank.

Definition emit_sine_table (n : Z) : M unit :=
  print (Line "pub(crate) const SINE: &[f32] = &[") ;;
  for_ (range 1 (n / 4)) (fun k =>
    let sine := sine n k in
    print (SineVal sine)) ;;
  print (Line "];") ;;
  print Blank.

(** The loop [while n > 2: ...; n //= 2] of [emit_sine]. *)
Fixpoint emit_sine_loop (fuel : nat) (max_n n : Z) : M unit :=
  if n >? 2 then
    match fuel with
    | O => out_of_fuel
    | S fuel' =>
        let kw := if n =? max_n then "if" else "else if" in
        print (CfgSize kw n) ;;
        emit_sine_table n ;;
        print (Frag "}") ;;
        emit_sine_loop fuel' max_n (n / 2)
    end
  else ret tt.

Definition emit_sine (fuel : nat) (max_n : Z) : M unit :=
  print (Line "cfg_if::cfg_if! {") ;;
  emit_sine_loop fuel max_n max_n ;;
  print Blank ;;
  print (Line "}") ;;
  print Blank.

Definition emit_bitrev_table (n : Z) : M unit :=
  print (Line "    &[") ;;
  nbits <- int_log2 n ;;
  for_ (range 0 n) (fun i =>
    let rev := reverse_bits i nbits in
    let entry := if rev >? i then rev else i in
    print (BitrevVal entry)) ;;
  print (Line "    ],").

(** The loop [while n <= max_n: ...; n *= 2] of [emit_bitrev]. *)
Fixpoint emit_bitrev_loop (fuel : nat) (max_n n : Z) : M unit :=
  if n <=? max_n then
    match fuel with
    | O => out_of_fuel
    | S fuel' =>
        emit_bitrev_table n ;;
        emit_bitrev_loop fuel' max_n (n * 2)
    end
  else ret tt.

Definition emit_bitrev (fuel : nat) (max_n : Z) : M unit :=
  print CfgBitrev ;;
  print (Line "pub(crate) const BITREV: &[&[u16]] = &[") ;;
  emit_bitrev_loop fuel max_n 1 ;;
  print (Line "];") ;;
  print Blank.

(** [main], with [args.N] as its argument. *)
Definition main (fuel : nat) (N : Z) : M unit :=
  emit_header ;;
  emit_sine fuel N ;;
  emit_bitrev fuel N.

(** ** Reading the tables back from the output *)

(** The values printed by one table. *)
Fixpoint sine_values (out : list item) : list float :=
  match out with
  | [] => []
  | SineVal x :: out' => x :: sine_values out'
  | _ :: out' => sine_values out'
  end.

Fixpoint bitrev_values (out : list item) : list Z :=
  match out with
  | [] => []
  | BitrevVal e :: out' => e :: bitrev_values out'
  | _ :: out' => bitrev_values out'
  end.

(** The table printed for size [n]. *)
Definition twiddle_table (n : Z) : list float :=
  sine_values (fst (emit_sine_table n)).
Definition bitrev_table (n : Z) : list Z :=
  bitrev_values (fst (emit_bitrev_table n)).

(** The sine values up to the next [size-n] guard. *)
Fixpoint sine_block (out : list item) : list float :=
  match out with
  | [] => []
  | CfgSize _ _ :: _ => []
  | SineVal x :: out' => x :: sine_block out'
  | _ :: out' => sine_block out'
  end.

(** The twiddle tables of a whole output, each with the size of its guard. *)
Fixpoint twiddle_tables (out : list item) : list (Z * list float) :=
  match out with
  | [] => []
  | CfgSize _ n :: out' => (n, sine_block out') :: twiddle_tables out'
  | _ :: out' => twiddle_tables out'
  end.

(** The keywords of the [size-n] guards of an output, in order. *)
Fixpoint guard_keywords (out : list item) : list string :=
  match out with
  | [] => []
  | CfgSize kw _ :: out' => kw :: guard_keywords out'
  | _ :: out' => guard_keywords out'
  end.


(** The sizes [1, 2, 4, ..., N] of the bit-reversal tables of a power of two
    [N]. *)
Definition ascending_chain (N : Z) : list Z :=
  map (fun j => 2 ^ j) (seqZ 0 (Z.log2 N + 1)).

(** Rounds that both [while] loops of [main] complete within. *)
Definition enough_fuel (N : Z) : nat := S (Z.to_nat (Z.log2 N)).

Definition row_open : string := "    &[".

(** The entries up to the next row of the [BITREV] array. *)
Fixpoint bitrev_row (out : list item) : list Z :=
  match out with
  | [] => []
  | Line s :: out' => if String.eqb s row_open then [] else bitrev_row out'
  | BitrevVal e :: out' => e :: bitrev_row out'
  | _ :: out' => bitrev_row out'
  end.

(** The rows of the [BITREV] array of a whole output, in order. *)
Fixpoint bitrev_tables (out : list item) : list (list Z) :=
  match out with
  | [] => []
  | Line s :: out' =>
      if String.eqb s row_open then bitrev_row out' :: bitrev_tables out'
      else bitrev_tables out'
  | _ :: out' => bitrev_tables out'
  end.


(** * Properties *)

Ltac case_cmp :=
  repeat match goal with
    | |- context [Z.leb ?a ?b] => destruct (Z.leb_spec a b)
    | |- context [Z.ltb ?a ?b] => destruct (Z.ltb_spec a b)
    | |- context [Z.gtb ?a ?b] => rewrite (Z.gtb_ltb a b)
    | |- context [Z.eqb ?a ?b] => destruct (Z.eqb_spec a b)
    end.

(** ** Bits of [reverse_bits] *)

Lemma truthy_land_bit num i :
  0 <= i -> truthy (Z.land num (Z.shiftl 1 i)) = Z.testbit num i.
Proof.
  intros Hi. unfold truthy. rewrite Z.shiftl_1_l.
  destruct (Z.testbit num i) eqn:Hb.
  - apply negb_true_iff, Z.eqb_neq. intros H0.
    assert (Hc : Z.testbit (Z.land num (2 ^ i)) i = true).
    { rewrite Z.land_spec, Hb, Z.pow2_bits_true; auto. }
    rewrite H0, Z.bits_0 in Hc. discriminate.
  - apply negb_false_iff, Z.eqb_eq, Z.bits_inj'. intros j Hj.
    rewrite Z.land_spec, Z.bits_0, Z.pow2_bits_eqb by lia.
    destruct (Z.eqb_spec i j); subst; rewrite ?Hb, ?andb_false_r; auto.
Qed.

(** The state of the loop of [reverse_bits] after [m] rounds. *)
Lemma reverse_bits_loop num nbits (m : nat) :
  Z.of_nat m <= nbits ->
  let acc := foldl (fun reverse i =>
                      if truthy (Z.land num (Z.shiftl 1 i))
                      then Z.lor reverse (Z.shiftl 1 (nbits - 1 - i))
                      else reverse) 0 (seqZ 0 (Z.of_nat m)) in
  0 <= acc /\
  forall j, 0 <= j ->
    Z.testbit acc j
    = (nbits - Z.of_nat m <=? j) && (j <? nbits) && Z.testbit num (nbits - 1 - j).
Proof.
  induction m as [|m IH]; intros Hm acc.
  - subst acc. simpl. split; [lia|]. intros j Hj. rewrite Z.bits_0.
    case_cmp; simpl; auto; lia.
  - destruct IH as [IH0 IHb]; [lia|].
    subst acc. rewrite seqZ_S, foldl_app. simpl.
    rewrite truthy_land_bit by lia. rewrite Z.add_0_l.
    set (acc := foldl _ 0 (seqZ 0 (Z.of_nat m))) in *.
    destruct (Z.testbit num (Z.of_nat m)) eqn:Hb.
    + split.
      { apply Z.lor_nonneg. split; [lia|]. rewrite Z.shiftl_1_l.
        apply Z.pow_nonneg. lia. }
      intros j Hj. rewrite Z.lor_spec, IHb, Z.shiftl_1_l by lia.
      rewrite Z.pow2_bits_eqb by lia.
      destruct (Z.eqb_spec (nbits - 1 - Z.of_nat m) j) as [E|E].
      * replace (nbits - 1 - j) with (Z.of_nat m) by lia. rewrite Hb.
        case_cmp; try lia; reflexivity.
      * rewrite orb_false_r. case_cmp; try lia; reflexivity.
    + split; [lia|]. intros j Hj. rewrite IHb by lia.
      destruct (Z.eqb_spec (nbits - 1 - Z.of_nat m) j) as [E|E].
      * replace (nbits - 1 - j) with (Z.of_nat m) by lia. rewrite Hb.
        rewrite !andb_false_r. reflexivity.
      * case_cmp; try lia; reflexivity.
Qed.

Lemma reverse_bits_nonneg num nbits : 0 <= reverse_bits num nbits.
Proof.
  unfold reverse_bits, range. rewrite Z.sub_0_r.
  destruct (Z.le_gt_cases 0 nbits) as [H|H].
  - replace (seqZ 0 nbits) with (seqZ 0 (Z.of_nat (Z.to_nat nbits)))
      by (rewrite Z2Nat.id; [reflexivity|lia]).
    apply (reverse_bits_loop num nbits (Z.to_nat nbits)). lia.
  - rewrite seqZ_nil by lia. simpl. lia.
Qed.

Lemma reverse_bits_testbit num nbits j :
  0 <= j ->
  Z.testbit (reverse_bits num nbits) j
  = (j <? nbits) && Z.testbit num (nbits - 1 - j).
Proof.
  intros Hj. unfold reverse_bits, range. rewrite Z.sub_0_r.
  destruct (Z.le_gt_cases 0 nbits) as [H|H].
  - replace (seqZ 0 nbits) with (seqZ 0 (Z.of_nat (Z.to_nat nbits)))
      by (rewrite Z2Nat.id; [reflexivity|lia]).
    destruct (reverse_bits_loop num nbits (Z.to_nat nbits)) as [_ Hb]; [lia|].
    rewrite Hb by lia. rewrite Z2Nat.id by lia.
    case_cmp; try lia; reflexivity.
  - rewrite seqZ_nil by lia. simpl. rewrite Z.bits_0.
    case_cmp; try lia; reflexivity.
Qed.

Lemma reverse_bits_lt num nbits :
  0 <= nbits -> reverse_bits num nbits < 2 ^ nbits.
Proof.
  intros Hb.
  assert (E : reverse_bits num nbits = reverse_bits num nbits mod 2 ^ nbits).
  { apply Z.bits_inj'. intros j Hj.
    destruct (Z.lt_ge_cases j nbits).
    - rewrite Z.mod_pow2_bits_low by lia. reflexivity.
    - rewrite Z.mod_pow2_bits_high by lia.
      rewrite reverse_bits_testbit by lia.
      destruct (Z.ltb_spec j nbits); [lia|reflexivity]. }
  rewrite E. apply Z.mod_pos_bound. apply Z.pow_pos_nonneg; lia.
Qed.

Lemma testbit_high i b j : 0 <= i < 2 ^ b -> b <= j -> Z.testbit i j = false.
Proof.
  intros Hi Hj.
  assert (0 <= b).
  { destruct (Z.lt_ge_cases b 0); [|lia]. rewrite Z.pow_neg_r in Hi; lia. }
  rewrite <- (Z.mod_small i (2 ^ b)) by lia.
  apply Z.mod_pow2_bits_high. lia.
Qed.

Lemma reverse_bits_involutive i b :
  0 <= i < 2 ^ b -> reverse_bits (reverse_bits i b) b = i.
Proof.
  intros Hi. apply Z.bits_inj'. intros j Hj.
  rewrite reverse_bits_testbit by lia.
  destruct (Z.ltb_spec j b) as [Hlt|Hge]; simpl.
  - rewrite reverse_bits_testbit by lia.
    replace (b - 1 - (b - 1 - j)) with j by lia.
    destruct (Z.ltb_spec (b - 1 - j) b); [reflexivity|lia].
  - symmetry. eapply testbit_high; eauto.
Qed.

(** ** Powers of two *)

Lemma is_pow2_spec n : is_pow2 n = true <-> exists e, 0 <= e /\ n = 2 ^ e.
Proof.
  unfold is_pow2. rewrite andb_true_iff, Z.ltb_lt, Z.eqb_eq. split.
  - intros [_ E]. exists (Z.log2 n). split; [apply Z.log2_nonneg|exact E].
  - intros (e & He & ->). rewrite Z.log2_pow2 by lia.
    split; [apply Z.pow_pos_nonneg; lia|reflexivity].
Qed.

Lemma is_pow2_log2 n : is_pow2 n = true -> 0 < n /\ n = 2 ^ Z.log2 n.
Proof.
  unfold is_pow2. rewrite andb_true_iff, Z.ltb_lt, Z.eqb_eq. tauto.
Qed.

(** ** What the two table printers print *)

Lemma for_print {A} (f : A -> item) xs :
  for_ xs (fun x => print (f x)) = (map f xs, Ret tt).
Proof.
  induction xs as [|x xs IH]; simpl; [reflexivity|].
  rewrite IH. reflexivity.
Qed.

Lemma emit_sine_table_eq n :
  emit_sine_table n
  = (Line "pub(crate) const SINE: &[f32] = &["
       :: map (fun k => SineVal (sine n k)) (range 1 (n / 4))
       ++ [Line "];"; Blank],
     Ret tt).
Proof.
  unfold emit_sine_table.
  rewrite (for_print (fun k => SineVal (sine n k))). reflexivity.
Qed.

Lemma emit_bitrev_table_eq n :
  0 < n ->
  emit_bitrev_table n
  = (Line row_open
       :: map (fun i => BitrevVal (let rev := reverse_bits i (Z.log2 n) in
                                   if rev >? i then rev else i))
              (range 0 n)
       ++ [Line "    ],"],
     Ret tt).
Proof.
  intros Hn. unfold emit_bitrev_table, int_log2.
  destruct (Z.leb_spec n 0); [lia|]. simpl.
  rewrite (for_print (fun i => BitrevVal _)). simpl.
  reflexivity.
Qed.




Lemma bitrev_values_app o1 o2 :
  bitrev_values (o1 ++ o2) = bitrev_values o1 ++ bitrev_values o2.
Proof.
  induction o1 as [|[] o1 IH]; simpl; rewrite ?IH; reflexivity.
Qed.

Lemma bitrev_values_map xs : bitrev_values (map BitrevVal xs) = xs.
Proof. induction xs; simpl; congruence. Qed.


Lemma bitrev_table_eq n :
  0 < n ->
  bitrev_table n
  = map (fun i => Z.max i (reverse_bits i (Z.log2 n))) (range 0 n).
Proof.
  intros Hn. unfold bitrev_table. rewrite emit_bitrev_table_eq by lia. simpl.
  rewrite bitrev_values_app. simpl. rewrite app_nil_r.
  rewrite <- (bitrev_values_map (map _ (range 0 n))), map_map.
  f_equal. apply map_ext. intros i. f_equal. simpl.
  rewrite Z.gtb_ltb. destruct (Z.ltb_spec i (reverse_bits i (Z.log2 n))); lia.
Qed.

Lemma bitrev_table_lookup n i :
  0 <= i < n ->
  bitrev_table n !! Z.to_nat i = Some (Z.max i (reverse_bits i (Z.log2 n))).
Proof.
  intros Hi. rewrite bitrev_table_eq by lia. unfold range.
  rewrite list_lookup_fmap, lookup_seqZ_lt by lia. simpl.
  rewrite Z2Nat.id by lia. reflexivity.
Qed.




(** ** The two [while] loops *)

Lemma emit_sine_table_ret n : snd (emit_sine_table n) = Ret tt.
Proof. rewrite emit_sine_table_eq. reflexivity. Qed.

Lemma emit_sine_loop_stop fuel max_n n :
  n <= 2 -> emit_sine_loop fuel max_n n = ([], Ret tt).
Proof.
  intros Hn. destruct fuel; simpl; rewrite Z.gtb_ltb;
    destruct (Z.ltb_spec 2 n); try lia; reflexivity.
Qed.

Lemma emit_sine_loop_step fuel max_n n :
  2 < n ->
  emit_sine_loop (S fuel) max_n n
  = (CfgSize (if n =? max_n then "if" else "else if") n
       :: fst (emit_sine_table n)
       ++ Frag "}" :: fst (emit_sine_loop fuel max_n (n / 2)),
     snd (emit_sine_loop fuel max_n (n / 2))).
Proof.
  intros Hn. cbn [emit_sine_loop]. rewrite Z.gtb_ltb.
  destruct (Z.ltb_spec 2 n); [|lia].
  rewrite emit_sine_table_eq.
  destruct (emit_sine_loop fuel max_n (n / 2)) as [o r]. simpl.
  rewrite <- !app_assoc. reflexivity.
Qed.

Lemma emit_sine_loop_fuel max_n n :
  2 < n -> emit_sine_loop O max_n n = ([], OutOfFuel).
Proof.
  intros Hn. simpl. rewrite Z.gtb_ltb.
  destruct (Z.ltb_spec 2 n); [reflexivity|lia].
Qed.



(** More fuel does not change a run that has ended. *)
Lemma emit_sine_loop_mono fuel fuel' max_n n :
  snd (emit_sine_loop fuel max_n n) <> OutOfFuel ->
  (fuel <= fuel')%nat ->
  emit_sine_loop fuel' max_n n = emit_sine_loop fuel max_n n.
Proof.
  revert fuel' n. induction fuel as [|fuel IH]; intros fuel' n Hfin Hle.
  - destruct (Z.le_gt_cases n 2) as [|H].
    + rewrite !emit_sine_loop_stop by lia. reflexivity.
    + rewrite emit_sine_loop_fuel in Hfin by (auto; lia). simpl in Hfin.
      congruence.
  - destruct (Z.le_gt_cases n 2) as [|H].
    + rewrite !emit_sine_loop_stop by lia. reflexivity.
    + destruct fuel' as [|fuel']; [lia|].
      rewrite emit_sine_loop_step in Hfin by lia. simpl in Hfin.
      rewrite !emit_sine_loop_step by lia.
      rewrite (IH fuel' (n / 2)) by (auto; lia). reflexivity.
Qed.

Lemma emit_bitrev_loop_stop fuel max_n n :
  max_n < n -> emit_bitrev_loop fuel max_n n = ([], Ret tt).
Proof.
  intros Hn. destruct fuel; simpl;
    destruct (Z.leb_spec n max_n); try lia; reflexivity.
Qed.

Lemma emit_bitrev_loop_fuel max_n n :
  n <= max_n -> emit_bitrev_loop O max_n n = ([], OutOfFuel).
Proof.
  intros Hn. simpl. destruct (Z.leb_spec n max_n); [reflexivity|lia].
Qed.

Lemma emit_bitrev_loop_step fuel max_n n :
  0 < n <= max_n ->
  emit_bitrev_loop (S fuel) max_n n
  = (fst (emit_bitrev_table n) ++ fst (emit_bitrev_loop fuel max_n (n * 2)),
     snd (emit_bitrev_loop fuel max_n (n * 2))).
Proof.
  intros Hn. cbn [emit_bitrev_loop].
  destruct (Z.leb_spec n max_n); [|lia].
  rewrite emit_bitrev_table_eq by lia.
  destruct (emit_bitrev_loop fuel max_n (n * 2)) as [o r]. reflexivity.
Qed.

(** The bit-reversal loop, entered at a positive [n], ends within
    [log2 max_n - log2 n + 1] rounds. *)
Lemma emit_bitrev_loop_ret fuel max_n n :
  0 < n ->
  Z.log2 max_n + 1 - Z.log2 n <= Z.of_nat fuel ->
  snd (emit_bitrev_loop fuel max_n n) = Ret tt.
Proof.
  revert n. induction fuel as [|fuel IH]; intros n Hn Hf.
  - rewrite emit_bitrev_loop_stop; [reflexivity|].
    destruct (Z.lt_ge_cases max_n n) as [|H]; [lia|].
    pose proof (Z.log2_le_mono n max_n). lia.
  - destruct (Z.lt_ge_cases max_n n) as [|H].
    + rewrite emit_bitrev_loop_stop by lia. reflexivity.
    + rewrite emit_bitrev_loop_step by lia. simpl. apply IH; [lia|].
      rewrite (Z.mul_comm n 2), Z.log2_double by lia. lia.
Qed.

Lemma emit_bitrev_loop_mono fuel fuel' max_n n :
  snd (emit_bitrev_loop fuel max_n n) <> OutOfFuel ->
  (fuel <= fuel')%nat ->
  emit_bitrev_loop fuel' max_n n = emit_bitrev_loop fuel max_n n.
Proof.
  revert fuel' n. induction fuel as [|fuel IH]; intros fuel' n Hfin Hle.
  - destruct (Z.lt_ge_cases max_n n) as [|H].
    + rewrite !emit_bitrev_loop_stop by lia. reflexivity.
    + rewrite emit_bitrev_loop_fuel in Hfin by lia. simpl in Hfin.
      congruence.
  - destruct (Z.lt_ge_cases max_n n) as [|H].
    + rewrite !emit_bitrev_loop_stop by lia. reflexivity.
    + destruct fuel' as [|fuel']; [lia|].
      revert Hfin. cbn [emit_bitrev_loop].
      destruct (Z.leb_spec n max_n); [|lia].
      destruct (emit_bitrev_table n) as [o1 [[]|e|]]; simpl; auto.
      intros Hfin.
      destruct (emit_bitrev_loop fuel max_n (n * 2)) as [o r] eqn:E.
      rewrite (IH fuel' (n * 2)) by (rewrite ?E; auto; lia).
      rewrite E. reflexivity.
Qed.


(** ** Reading tables back from what the loops print *)




Lemma bitrev_row_table n rest :
  0 < n ->
  bitrev_row (fst (emit_bitrev_table n) ++ rest) = [].
Proof. intros Hn. rewrite emit_bitrev_table_eq by lia. reflexivity. Qed.

Lemma bitrev_tables_table n rest :
  0 < n ->
  bitrev_tables (fst (emit_bitrev_table n) ++ rest)
  = (bitrev_table n ++ bitrev_row rest) :: bitrev_tables rest.
Proof.
  intros Hn. unfold bitrev_table. rewrite emit_bitrev_table_eq by lia.
  simpl. f_equal.
  - induction (range 0 n) as [|k ks IH]; simpl; [reflexivity|].
    rewrite IH. reflexivity.
  - induction (range 0 n) as [|k ks IH]; simpl; [reflexivity|exact IH].
Qed.





(** ** The chains of sizes *)







(** ** The generators and [main] *)


Lemma emit_bitrev_eq fuel max_n :
  snd (emit_bitrev_loop fuel max_n 1) = Ret tt ->
  emit_bitrev fuel max_n
  = (CfgBitrev
       :: Line "pub(crate) const BITREV: &[&[u16]] = &["
       :: fst (emit_bitrev_loop fuel max_n 1) ++ [Line "];"; Blank],
     Ret tt).
Proof.
  unfold emit_bitrev.
  destruct (emit_bitrev_loop fuel max_n 1) as [o r]. simpl.
  intros ->. reflexivity.
Qed.


Lemma enough_fuel_bitrev N fuel :
  (enough_fuel N <= fuel)%nat -> Z.log2 N + 1 - Z.log2 1 <= Z.of_nat fuel.
Proof. unfold enough_fuel. pose proof (Z.log2_nonneg N). simpl. lia. Qed.




Lemma emit_sine_mono fuel fuel' N :
  snd (emit_sine fuel N) <> OutOfFuel ->
  (fuel <= fuel')%nat ->
  emit_sine fuel' N = emit_sine fuel N.
Proof.
  intros Hfin Hle. unfold emit_sine in *.
  rewrite (emit_sine_loop_mono fuel fuel'); auto.
  destruct (emit_sine_loop fuel N N) as [o [[]| |]]; simpl in *; congruence.
Qed.

Lemma emit_bitrev_mono fuel fuel' N :
  snd (emit_bitrev fuel N) <> OutOfFuel ->
  (fuel <= fuel')%nat ->
  emit_bitrev fuel' N = emit_bitrev fuel N.
Proof.
  intros Hfin Hle. unfold emit_bitrev in *.
  rewrite (emit_bitrev_loop_mono fuel fuel'); auto.
  destruct (emit_bitrev_loop fuel N 1) as [o [[]| |]]; simpl in *; congruence.
Qed.

(** A run of [main] that has ended is not changed by more fuel. *)
Lemma main_mono fuel fuel' N :
  snd (main fuel N) <> OutOfFuel ->
  (fuel <= fuel')%nat ->
  main fuel' N = main fuel N.
Proof.
  intros Hfin Hle. unfold main in *.
  assert (Hs : snd (emit_sine fuel N) <> OutOfFuel).
  { intros E. apply Hfin.
    destruct (emit_sine fuel N) as [o r]. simpl in E. subst. reflexivity. }
  rewrite (emit_sine_mono fuel fuel') by auto.
  destruct (emit_sine fuel N) as [o [[]|e|]] eqn:Es; try reflexivity.
  rewrite (emit_bitrev_mono fuel fuel'); auto.
  intros E. apply Hfin.
  destruct (emit_bitrev fuel N) as [ob rb]. simpl in E. subst. reflexivity.
Qed.


(** ** Which sizes the chains hold *)









(** * The claims *)


(** C2, amended.  For every power of two [n] and every [i] in [0 .. n-1], the
    entry at [i] of the bit-reversal table is [max(i, r)] with
    [r = reverse_bits(i, log2 n)]; it lies in [{i, r}]; it equals [r] exactly
    when [r >= i], and differs from [i] exactly when [r > i]. *)
Theorem bitrev_table_entry n i :
  is_pow2 n = true -> 0 <= i < n ->
  exists e,
    bitrev_table n !! Z.to_nat i = Some e /\
    e = Z.max i (reverse_bits i (Z.log2 n)) /\
    (e = i \/ e = reverse_bits i (Z.log2 n)) /\
    (e = reverse_bits i (Z.log2 n) <-> i <= reverse_bits i (Z.log2 n)) /\
    (e <> i <-> i < reverse_bits i (Z.log2 n)).
Proof.
  intros _ Hi. eexists. split; [apply bitrev_table_lookup, Hi|]. lia.
Qed.

(** C3, amended.  For [N = 8] the run ends normally and prints: twiddle
    tables for the sizes 8 and 4, the first holding the single sample
    [sin(-2 pi 1 / 8)], the second empty, and none for size 2; bit-reversal
    tables [[0]], [[0, 1]], [[0, 2, 2, 3]] and [[0, 4, 2, 6, 4, 5, 6, 7]] for
    the sizes 1, 2, 4 and 8. *)
Theorem tables_of_8 fuel :
  (enough_fuel 8 <= fuel)%nat ->
  exists out,
    main fuel 8 = (out, Ret tt) /\
    twiddle_tables out = [(8, [sine 8 1]); (4, [])] /\
    bitrev_tables out
    = [[0]; [0; 1]; [0; 2; 2; 3]; [0; 4; 2; 6; 4; 5; 6; 7]].
Proof.
  intros Hf. rewrite (main_mono (enough_fuel 8) fuel); [| |exact Hf].
  - eexists. split; [reflexivity|]. split; reflexivity.
  - discriminate.
Qed.





(** C7.  For every bit width [b >= 0], every [i] with [0 <= i < 2^b] and
    every [j] in [0 .. b-1], bit [j] of [reverse_bits i b] is bit [b-1-j] of
    [i]; and the bit-reversal table of size 1 (width 0) is [[0]]. *)
Theorem reverse_bits_bit_spec :
  (forall b i j,
     0 <= b -> 0 <= i < 2 ^ b -> 0 <= j < b ->
     Z.testbit (reverse_bits i b) j = Z.testbit i (b - 1 - j)) /\
  bitrev_table 1 = [0].
Proof.
  split; [|reflexivity].
  intros b i j _ _ Hj. rewrite reverse_bits_testbit by lia.
  destruct (Z.ltb_spec j b); [reflexivity|lia].
Qed.


(** C9.  [reverse_bits] is an involution on [b]-bit numbers: for every
    [b >= 0] and [0 <= i < 2^b], reversing twice gives [i] back. *)
Theorem reverse_bits_involution b i :
  0 <= b -> 0 <= i < 2 ^ b -> reverse_bits (reverse_bits i b) b = i.
Proof. intros _ Hi. apply reverse_bits_involutive, Hi. Qed.

(** C10.  In the bit-reversal table of size [n = 2^b], for every [i] in
    [0 .. n-1]: [reverse_bits i b < 2^b]; the entry [e] at [i] satisfies
    [i <= e < n]; and the entry at [reverse_bits i b] is the same [e]. *)
Theorem bitrev_table_range_symmetry b i :
  0 <= b -> 0 <= i < 2 ^ b ->
  reverse_bits i b < 2 ^ b /\
  exists e,
    bitrev_table (2 ^ b) !! Z.to_nat i = Some e /\
    i <= e < 2 ^ b /\
    bitrev_table (2 ^ b) !! Z.to_nat (reverse_bits i b) = Some e.
Proof.
  intros Hb Hi.
  pose proof (reverse_bits_lt i b Hb) as Hlt.
  pose proof (reverse_bits_nonneg i b) as Hge.
  split; [exact Hlt|].
  exists (Z.max i (reverse_bits i b)). split; [|split; [lia|]].
  - rewrite bitrev_table_lookup, Z.log2_pow2 by lia. reflexivity.
  - rewrite bitrev_table_lookup, Z.log2_pow2 by lia.
    rewrite reverse_bits_involutive by lia. f_equal. lia.
Qed.


(** * Further properties of the script *)

(** ** [reverse_bits] on arbitrary arguments *)

(** X1.  [reverse_bits] reads only the [nbits] low bits of [num]: reducing
    [num] modulo [2^nbits] first does not change the result, whatever [num]
    is (negative or wider than [nbits] bits). *)
Theorem reverse_bits_low_bits num nbits :
  reverse_bits (num mod 2 ^ nbits) nbits = reverse_bits num nbits.
Proof.
  destruct (Z.lt_ge_cases nbits 0) as [Hneg|Hb].
  - rewrite Z.pow_neg_r by lia. rewrite Z.mod_0_r. reflexivity.
  - apply Z.bits_inj'. intros j Hj. rewrite !reverse_bits_testbit by lia.
    destruct (Z.ltb_spec j nbits); [|reflexivity]. simpl.
    apply Z.mod_pow2_bits_low. lia.
Qed.

(** X2.  Whatever its arguments, [reverse_bits] returns a number that is not
    negative; it is below [2^nbits] when [nbits >= 0], and it is 0 when
    [nbits <= 0] (the loop body never runs). *)
Theorem reverse_bits_bounds num nbits :
  0 <= reverse_bits num nbits /\
  (0 <= nbits -> reverse_bits num nbits < 2 ^ nbits) /\
  (nbits <= 0 -> reverse_bits num nbits = 0).
Proof.
  split; [apply reverse_bits_nonneg|]. split; [apply reverse_bits_lt|].
  intros Hb. unfold reverse_bits, range. rewrite seqZ_nil by lia.
  reflexivity.
Qed.

Lemma reverse_bits_elem b x :
  0 <= b ->
  x ∈ map (fun i => reverse_bits i b) (range 0 (2 ^ b)) <-> 0 <= x < 2 ^ b.
Proof.
  intros Hb. unfold range. rewrite Z.sub_0_r, list_elem_of_fmap. split.
  - intros (i & -> & _). split; [apply reverse_bits_nonneg|].
    apply reverse_bits_lt, Hb.
  - intros Hx. exists (reverse_bits x b). split.
    + symmetry. apply reverse_bits_involutive, Hx.
    + apply elem_of_seqZ. pose proof (reverse_bits_nonneg x b).
      pose proof (reverse_bits_lt x b Hb). lia.
Qed.

(** X3.  For every width [b >= 0], [reverse_bits(., b)] permutes
    [0 .. 2^b - 1]: the reversals of [0, 1, ..., 2^b - 1] are these numbers
    again, each once, in another order. *)
Theorem reverse_bits_permutation b :
  0 <= b ->
  map (fun i => reverse_bits i b) (range 0 (2 ^ b)) ≡ₚ range 0 (2 ^ b).
Proof.
  intros Hb. apply NoDup_Permutation.
  - unfold range. apply NoDup_fmap_2_strong; [|apply NoDup_seqZ].
    intros i j Hi Hj Heq. apply elem_of_seqZ in Hi, Hj.
    rewrite <- (reverse_bits_involutive i b), Heq by lia.
    apply reverse_bits_involutive. lia.
  - apply NoDup_seqZ.
  - intros x. rewrite reverse_bits_elem by exact Hb.
    unfold range. rewrite elem_of_seqZ. lia.
Qed.

(** X4.  Reversal and the lowest bit: at width [b + 1], an even number [2i]
    reverses to the [b]-bit reversal of [i], and the odd number [2i + 1] to
    that plus [2^b]. *)
Theorem reverse_bits_even_odd i b :
  0 <= b ->
  reverse_bits (2 * i) (b + 1) = reverse_bits i b /\
  reverse_bits (2 * i + 1) (b + 1) = reverse_bits i b + 2 ^ b.
Proof.
  intros Hb. split.
  - apply Z.bits_inj'. intros j Hj. rewrite !reverse_bits_testbit by lia.
    destruct (Z.ltb_spec j b).
    + destruct (Z.ltb_spec j (b + 1)); [|lia]. simpl.
      replace (b + 1 - 1 - j) with (Z.succ (b - 1 - j)) by lia.
      apply Z.testbit_even_succ. lia.
    + simpl. destruct (Z.ltb_spec j (b + 1)); [|reflexivity]. simpl.
      replace (b + 1 - 1 - j) with 0 by lia. apply Z.testbit_even_0.
  - assert (Hland : Z.land (reverse_bits i b) (2 ^ b) = 0).
    { apply Z.bits_inj'. intros j Hj.
      rewrite Z.land_spec, Z.bits_0, reverse_bits_testbit by lia.
      rewrite Z.pow2_bits_eqb by lia.
      destruct (Z.ltb_spec j b), (Z.eqb_spec b j); simpl;
        rewrite ?andb_false_r; auto; lia. }
    rewrite (Z.add_nocarry_lor _ _ Hland).
    apply Z.bits_inj'. intros j Hj.
    rewrite Z.lor_spec, !reverse_bits_testbit by lia.
    rewrite Z.pow2_bits_eqb by lia.
    destruct (Z.ltb_spec j b).
    + destruct (Z.ltb_spec j (b + 1)), (Z.eqb_spec b j); try lia. simpl.
      rewrite orb_false_r.
      replace (b + 1 - 1 - j) with (Z.succ (b - 1 - j)) by lia.
      apply Z.testbit_odd_succ. lia.
    + simpl. destruct (Z.eqb_spec b j) as [<-|].
      * destruct (Z.ltb_spec b (b + 1)); [|lia]. simpl.
        replace (b + 1 - 1 - b) with 0 by lia. apply Z.testbit_odd_0.
      * destruct (Z.ltb_spec j (b + 1)); [lia|reflexivity].
Qed.

(** X5.  Widening by one bit: the [(b+1)]-bit reversal of [i] is twice its
    [b]-bit reversal, plus bit [b] of [i]. *)
Theorem reverse_bits_widen i b :
  0 <= b ->
  reverse_bits i (b + 1)
  = 2 * reverse_bits i b + Z.b2z (Z.testbit i b).
Proof.
  intros Hb. apply Z.bits_inj'. intros j Hj.
  rewrite reverse_bits_testbit by lia.
  destruct (Z.eq_dec j 0) as [->|Hj0].
  - rewrite Z.testbit_0_r.
    destruct (Z.ltb_spec 0 (b + 1)); [|lia]. simpl.
    f_equal. lia.
  - replace j with (Z.succ (j - 1)) at 3 by lia.
    rewrite Z.testbit_succ_r by lia.
    rewrite reverse_bits_testbit by lia.
    replace (b + 1 - 1 - j) with (b - 1 - (j - 1)) by lia.
    destruct (Z.ltb_spec j (b + 1)), (Z.ltb_spec (j - 1) b);
      try lia; reflexivity.
Qed.


(** ** The bit-reversal table of one size *)

(** X6.  Every stored entry is itself a fixed slot: in the table of size
    [2^b], if the entry at [i] is [e], then the entry at [e] is [e] again, so
    a pass that swaps slot [i] with slot [table[i]] never swaps a pair
    twice. *)
Theorem bitrev_table_idempotent b i :
  0 <= b -> 0 <= i < 2 ^ b ->
  exists e,
    bitrev_table (2 ^ b) !! Z.to_nat i = Some e /\
    bitrev_table (2 ^ b) !! Z.to_nat e = Some e.
Proof.
  intros Hb Hi.
  pose proof (reverse_bits_lt i b Hb) as Hlt.
  pose proof (reverse_bits_nonneg i b) as Hge.
  exists (Z.max i (reverse_bits i b)). split.
  - rewrite bitrev_table_lookup, Z.log2_pow2 by lia. reflexivity.
  - rewrite bitrev_table_lookup, Z.log2_pow2 by lia. f_equal.
    destruct (Z.max_spec i (reverse_bits i b)) as [[Hc ->]|[Hc ->]].
    + rewrite reverse_bits_involutive by lia. lia.
    + lia.
Qed.




(** ** What [main] never does *)





(** ** The generators on any [N], power of two or not *)




Lemma pow2_le_iff N j : 0 < N -> 0 <= j -> 2 ^ j <= N <-> j <= Z.log2 N.
Proof. intros HN Hj. apply Z.log2_le_pow2, HN. Qed.

Lemma bitrev_tables_loop_any fuel max_n j rest :
  0 < max_n ->
  0 <= j ->
  Z.log2 max_n + 1 - j <= Z.of_nat fuel ->
  bitrev_row rest = [] ->
  bitrev_row (fst (emit_bitrev_loop fuel max_n (2 ^ j)) ++ rest) = [] /\
  bitrev_tables (fst (emit_bitrev_loop fuel max_n (2 ^ j)) ++ rest)
  = map bitrev_table (map (fun i => 2 ^ i) (seqZ j (Z.log2 max_n + 1 - j)))
    ++ bitrev_tables rest.
Proof.
  intros Hpos. pose proof (Z.log2_nonneg max_n) as He.
  revert j. induction fuel as [|fuel IH]; intros j Hj Hf Hrest.
  - rewrite emit_bitrev_loop_stop, seqZ_nil; try lia.
    + split; [exact Hrest|reflexivity].
    + pose proof (pow2_le_iff max_n j Hpos Hj). lia.
  - destruct (Z.le_gt_cases j (Z.log2 max_n)) as [Hle|Hgt].
    + assert (0 < 2 ^ j <= max_n).
      { split; [apply Z.pow_pos_nonneg; lia|apply pow2_le_iff; lia]. }
      rewrite emit_bitrev_loop_step by lia. cbn [fst].
      rewrite <- app_assoc. rewrite bitrev_row_table by lia.
      split; [reflexivity|].
      rewrite bitrev_tables_table by lia.
      rewrite seqZ_cons by lia. cbn [map app].
      replace (2 ^ j * 2) with (2 ^ Z.succ j)
        by (rewrite Z.pow_succ_r; lia).
      destruct (IH (Z.succ j)) as [-> ->]; try lia; auto.
      rewrite app_nil_r.
      replace (Z.pred (Z.log2 max_n + 1 - j))
        with (Z.log2 max_n + 1 - Z.succ j) by lia.
      reflexivity.
    + rewrite emit_bitrev_loop_stop, seqZ_nil; try lia.
      * split; [exact Hrest|reflexivity].
      * pose proof (pow2_le_iff max_n j Hpos Hj). lia.
Qed.

(** X11.  For every [N >= 1], power of two or not, [emit_bitrev] prints one
    bit-reversal table for each power of two up to [N], in increasing order:
    a size is printed exactly when it is a power of two not above [N]. *)
Theorem emit_bitrev_sizes N fuel :
  1 <= N -> (enough_fuel N <= fuel)%nat ->
  exists out,
    emit_bitrev fuel N = (out, Ret tt) /\
    bitrev_tables out = map bitrev_table (ascending_chain N) /\
    (forall n, n ∈ ascending_chain N <-> is_pow2 n = true /\ n <= N).
Proof.
  intros HN Hf. pose proof (Z.log2_nonneg N) as He.
  eexists. split; [|split].
  - apply emit_bitrev_eq, emit_bitrev_loop_ret; [lia|].
    apply enough_fuel_bitrev, Hf.
  - cbn. change 1 with (2 ^ 0) at 1.
    destruct (bitrev_tables_loop_any fuel N 0 [Line "];"; Blank])
      as [_ ->]; auto; try lia.
    + apply enough_fuel_bitrev, Hf.
    + rewrite Z.sub_0_r. apply app_nil_r.
  - intros n. unfold ascending_chain. rewrite list_elem_of_fmap. split.
    + intros (j & -> & Hj). apply elem_of_seqZ in Hj. split.
      * apply is_pow2_spec. exists j. split; [lia|reflexivity].
      * apply pow2_le_iff; lia.
    + intros (Hn & Hhi). apply is_pow2_log2 in Hn as [Hnpos En].
      pose proof (Z.log2_nonneg n) as Hm.
      assert (Z.log2 n <= Z.log2 N) by (apply Z.log2_le_mono; lia).
      exists (Z.log2 n). split; [exact En|]. apply elem_of_seqZ. lia.
Qed.

(** X14.  For [N <= 0] both loops are skipped: [main] prints the header, an
    empty [cfg_if] block and an empty [BITREV] array, and returns normally. *)
Theorem main_nonpositive N fuel :
  N <= 0 ->
  main fuel N
  = (fst emit_header
       ++ [Line "cfg_if::cfg_if! {"; Blank; Line "}"; Blank;
           CfgBitrev; Line "pub(crate) const BITREV: &[&[u16]] = &[";
           Line "];"; Blank],
     Ret tt).
Proof.
  intros HN. unfold main, emit_sine, emit_bitrev.
  rewrite emit_sine_loop_stop, emit_bitrev_loop_stop by lia. reflexivity.
Qed.


(** ** The guards of the twiddle tables *)

Lemma guard_keywords_app o1 o2 :
  guard_keywords (o1 ++ o2) = guard_keywords o1 ++ guard_keywords o2.
Proof.
  induction o1 as [|[] o1 IH]; simpl; rewrite ?IH; reflexivity.
Qed.

Lemma guard_keywords_sine_table n :
  guard_keywords (fst (emit_sine_table n)) = [].
Proof.
  rewrite emit_sine_table_eq. simpl.
  induction (range 1 (n / 4)) as [|k ks IH]; simpl; [reflexivity|exact IH].
Qed.

Lemma emit_sine_loop_else fuel max_n n :
  n < max_n ->
  exists m,
    guard_keywords (fst (emit_sine_loop fuel max_n n))
    = replicate m "else if".
Proof.
  revert n. induction fuel as [|fuel IH]; intros n Hlt;
    destruct (Z.le_gt_cases n 2) as [|Hn].
  - exists O. rewrite emit_sine_loop_stop by lia. reflexivity.
  - exists O. rewrite emit_sine_loop_fuel by lia. reflexivity.
  - exists O. rewrite emit_sine_loop_stop by lia. reflexivity.
  - destruct (IH (n / 2)) as [m Hm].
    { pose proof (Z.div_lt n 2). lia. }
    exists (S m). rewrite emit_sine_loop_step by lia.
    cbn [fst guard_keywords]. rewrite guard_keywords_app.
    rewrite guard_keywords_sine_table. cbn [app guard_keywords].
    rewrite Hm. destruct (Z.eqb_spec n max_n); [lia|reflexivity].
Qed.

(** X13.  The guards printed by [emit_sine] form one conditional chain: for
    [N > 2] the first table is guarded by [if] and every later one by
    [else if]. *)
Theorem emit_sine_keywords N fuel :
  2 < N -> (0 < fuel)%nat ->
  exists m,
    guard_keywords (fst (emit_sine fuel N)) = "if" :: replicate m "else if".
Proof.
  intros HN Hf. destruct fuel as [|fuel]; [lia|].
  destruct (emit_sine_loop_else fuel N (N / 2)) as [m Hm].
  { pose proof (Z.div_lt N 2). lia. }
  exists m. unfold emit_sine. rewrite emit_sine_loop_step by lia.
  rewrite Z.eqb_refl.
  destruct (emit_sine_loop fuel N (N / 2)) as [o [[]|e|]]; simpl in *;
    rewrite !guard_keywords_app, guard_keywords_sine_table; simpl;
    rewrite ?guard_keywords_app; simpl; rewrite ?app_nil_r, Hm; reflexivity.
Qed.

(** ** The range of the printed entries *)








(** ** The two sections of the output *)



End Generator.

(** * The claims at concrete sizes *)

(** The theorems above, applied with the free implementation of floats. *)


(** C2 as stated fails at a self-paired index: in the table of size 8 the
    entry at 0 equals [reverse_bits 0 3 = 0], which is not greater than 0. *)
Lemma bitrev_entry_counterexample :
  ~ (exists e,
       @bitrev_table sym_float 8 !! Z.to_nat 0 = Some e /\
       e = Z.max 0 (reverse_bits 0 (Z.log2 8)) /\
       (e = 0 \/ e = reverse_bits 0 (Z.log2 8)) /\
       (e = reverse_bits 0 (Z.log2 8) <-> reverse_bits 0 (Z.log2 8) > 0)).
Proof.
  intros (e & He & _ & _ & [Hiff _]).
  vm_compute in He. injection He as <-.
  specialize (Hiff eq_refl). vm_compute in Hiff. discriminate Hiff.
Qed.

Lemma bitrev_table_entry_witness :
  exists e,
    @bitrev_table sym_float 8 !! Z.to_nat 3 = Some e /\
    e = Z.max 3 (reverse_bits 3 (Z.log2 8)) /\
    (e = 3 \/ e = reverse_bits 3 (Z.log2 8)) /\
    (e = reverse_bits 3 (Z.log2 8) <-> 3 <= reverse_bits 3 (Z.log2 8)) /\
    (e <> 3 <-> 3 < reverse_bits 3 (Z.log2 8)).
Proof.
  apply (@bitrev_table_entry sym_float 8 3); [reflexivity|lia].
Defined.

(** C3 as stated fails: the table of size 8 holds 4, not 1, at index 4, and
    the table of size 4 holds 2, not 1, at index 2. *)
Lemma bitrev_table_8_counterexample :
  ~ (@bitrev_table sym_float 8 = [0; 4; 2; 6; 1; 5; 3; 7] /\
     @bitrev_table sym_float 4 = [0; 2; 1; 3] /\
     @bitrev_table sym_float 2 = [0; 1] /\
     length (@twiddle_table sym_float 8) = 1%nat /\
     @twiddle_table sym_float 4 = []).
Proof. intros [H _]. vm_compute in H. discriminate H. Qed.

Lemma tables_of_8_witness :
  exists out,
    @main sym_float 4 8 = (out, Ret tt) /\
    twiddle_tables out = [(8, [@sine sym_float 8 1]); (4, [])] /\
    bitrev_tables out
    = [[0]; [0; 1]; [0; 2; 2; 3]; [0; 4; 2; 6; 4; 5; 6; 7]].
Proof. apply (@tables_of_8 sym_float 4). vm_compute. lia. Defined.





Lemma reverse_bits_bit_spec_witness :
  Z.testbit (reverse_bits 6 3) 0 = Z.testbit 6 (3 - 1 - 0).
Proof.
  apply (proj1 (@reverse_bits_bit_spec sym_float) 3 6 0); [lia|simpl; lia|lia].
Defined.

Lemma reverse_bits_involution_witness :
  reverse_bits (reverse_bits 6 3) 3 = 6.
Proof. apply (reverse_bits_involution 3 6); [lia|simpl; lia]. Defined.

Lemma bitrev_table_range_symmetry_witness :
  reverse_bits 1 3 < 2 ^ 3 /\
  exists e,
    @bitrev_table sym_float (2 ^ 3) !! Z.to_nat 1 = Some e /\
    1 <= e < 2 ^ 3 /\
    @bitrev_table sym_float (2 ^ 3) !! Z.to_nat (reverse_bits 1 3) = Some e.
Proof.
  apply (@bitrev_table_range_symmetry sym_float 3 1); [lia|simpl; lia].
Defined.

(** * The further properties at concrete sizes *)

Lemma reverse_bits_permutation_witness :
  map (fun i => reverse_bits i 3) (range 0 (2 ^ 3)) ≡ₚ range 0 (2 ^ 3).
Proof. apply (reverse_bits_permutation 3). lia. Defined.

Lemma reverse_bits_even_odd_witness :
  reverse_bits (2 * 3) (2 + 1) = reverse_bits 3 2 /\
  reverse_bits (2 * 3 + 1) (2 + 1) = reverse_bits 3 2 + 2 ^ 2.
Proof. apply (reverse_bits_even_odd 3 2). lia. Defined.

Lemma reverse_bits_widen_witness :
  reverse_bits 5 (2 + 1) = 2 * reverse_bits 5 2 + Z.b2z (Z.testbit 5 2).
Proof. apply (reverse_bits_widen 5 2). lia. Defined.

Lemma bitrev_table_idempotent_witness :
  exists e,
    @bitrev_table sym_float (2 ^ 3) !! Z.to_nat 1 = Some e /\
    @bitrev_table sym_float (2 ^ 3) !! Z.to_nat e = Some e.
Proof.
  apply (@bitrev_table_idempotent sym_float 3 1); [lia|simpl; lia].
Defined.


Lemma emit_bitrev_sizes_witness :
  exists out,
    @emit_bitrev sym_float 3 6 = (out, Ret tt) /\
    bitrev_tables out = map (@bitrev_table sym_float) (ascending_chain 6) /\
    (forall n, n ∈ ascending_chain 6 <-> is_pow2 n = true /\ n <= 6).
Proof.
  apply (@emit_bitrev_sizes sym_float 6 3); [lia|vm_compute; lia].
Defined.


Lemma emit_sine_keywords_witness :
  exists m,
    guard_keywords (fst (@emit_sine sym_float 3 16))
    = "if" :: replicate m "else if".
Proof. apply (@emit_sine_keywords sym_float 16 3); lia. Defined.

Lemma main_nonpositive_witness :
  @main sym_float 0 (-3)
  = (fst emit_header
       ++ [Line "cfg_if::cfg_if! {"; Blank; Line "}"; Blank;
           CfgBitrev; Line "pub(crate) const BITREV: &[&[u16]] = &[";
           Line "];"; Blank],
     Ret tt).
Proof. apply (@main_nonpositive sym_float (-3) 0). lia. Defined.

